(** * A reconnecting websocket client: [maintaining_a_websocket_connection.py]

    The program is two coroutines.  [websocket_generator] is an asynchronous
    generator that opens a websocket connection in a [while True] loop and
    yields it; [print_btc_ticker] iterates over the generator, subscribes to a
    ticker channel on every connection it is given and prints what it
    receives.  Both wrap their work in [try ... except Exception].

    Everything the program does is a call to a collaborator (the [websockets]
    library, [print], [logging]); the run of the program is therefore
    modelled as a deterministic machine whose states are the program points
    at which a collaborator has been called, whose input is what the
    collaborator answers, and whose output is the list of calls made. *)

From Stdlib Require Import List String Ascii Bool Arith Lia.
Import ListNotations.

Local Open Scope string_scope.
Local Open Scope list_scope.

(** ** Python values and exceptions *)

(** The values that cross the boundary with the collaborators: [None], a
    boolean (the [open] property), a text frame. *)
Inductive pyval : Type :=
| PNone
| PBool (b : bool)
| PStr (s : string).

(** Truth value of an object, as tested by [while websocket.open]. *)
Definition truthy (v : pyval) : bool :=
  match v with
  | PNone => false
  | PBool b => b
  | PStr s => negb (String.eqb s "")
  end.

(** [except Exception] catches the instances of [Exception] only.
    [CancelledError], [KeyboardInterrupt], [SystemExit] and [GeneratorExit]
    derive from [BaseException] directly and pass through it. *)
Inductive exn_kind : Type :=
| Ordinary
| BaseOnly.

Record exn : Type := mkExn { kind : exn_kind; text : string }.

Definition is_ordinary (e : exn) : bool :=
  match kind e with Ordinary => true | BaseOnly => false end.

(** What a collaborator answers to a call: it returns a value or raises. *)
Inductive answer : Type :=
| Done (v : pyval)
| Throw (e : exn).

(** ** [json.dumps] on the values the program builds *)

Module Json.

Local Open Scope string_scope.

#[local] Unset Elimination Schemes.

Inductive json : Type :=
| JStr (s : string)
| JArr (items : list json)
| JObj (fields : list (string * json)).

#[local] Set Elimination Schemes.

Definition dq : string := String "034"%char EmptyString.
Definition bs : string := String "092"%char EmptyString.

Definition hex_digit (n : nat) : string :=
  String (nth n (list_ascii_of_string "0123456789abcdef") "0"%char) EmptyString.

(** [ESCAPE_ASCII]: the quote and the backslash are escaped, and every
    character outside [' '..'~'], with the short forms of [ESCAPE_DCT]
    where there is one.  Characters are code points below 256. *)
Definition escape_char (c : ascii) : string :=
  let n := nat_of_ascii c in
  if Nat.eqb n 34 then bs ++ dq
  else if Nat.eqb n 92 then bs ++ bs
  else if Nat.eqb n 10 then bs ++ "n"
  else if Nat.eqb n 13 then bs ++ "r"
  else if Nat.eqb n 9 then bs ++ "t"
  else if Nat.eqb n 8 then bs ++ "b"
  else if Nat.eqb n 12 then bs ++ "f"
  else if Nat.ltb n 32 || Nat.ltb 126 n
       then bs ++ "u00" ++ hex_digit (n / 16) ++ hex_digit (n mod 16)
  else String c EmptyString.

Fixpoint escape (s : string) : string :=
  match s with
  | EmptyString => EmptyString
  | String c s' => escape_char c ++ escape s'
  end.

Definition quote (s : string) : string := dq ++ escape s ++ dq.

(** [", ".join(parts)] *)
Fixpoint join (parts : list string) : string :=
  match parts with
  | [] => EmptyString
  | [p] => p
  | p :: rest => p ++ ", " ++ join rest
  end.

(** [json.dumps] with its default separators [(', ', ': ')]; a [dict] is
    written in insertion order. *)
Fixpoint dumps (j : json) : string :=
  match j with
  | JStr s => quote s
  | JArr items => "[" ++ join (map dumps items) ++ "]"
  | JObj fields =>
      "{" ++ join (map (fun kv => quote (fst kv) ++ ": " ++ dumps (snd kv)) fields) ++ "}"
  end.

End Json.

Import Json.

(** ** Constants of the module *)

(** Line 7. *)
Definition URL : string := "wss://www.deribit.com/ws/api/v2".

(** Default of the parameter [retry_seconds] of [websocket_generator]
    (line 9); [print_btc_ticker] calls the generator without argument. *)
Definition default_retry_seconds : nat := 5.

(** Lines 26-32. *)
Definition msg : json :=
  JObj [ ("jsonrpc", JStr "2.0");
         ("method", JStr "public/subscribe");
         ("params", JObj [ ("channels", JArr [JStr "ticker.BTC-PERPETUAL.100ms"]) ]) ].

(** ** Calls and traces *)

(** A connection is named by its generation: the number of connections
    opened before it. *)
Definition handle : Type := nat.

(** The coroutines the program creates. *)
Inductive coro : Type :=
| Connect (url : string)             (* websockets.connect(URL).__aenter__() *)
| Send (h : handle) (frame : string) (* websocket.send(frame) *)
| Recv (h : handle)                  (* websocket.recv() *)
| Close (h : handle)                 (* __aexit__ of the async with: closes h *)
| Sleep (seconds : nat).             (* asyncio.sleep(seconds) *)

Inductive event : Type :=
| Await (c : coro)        (* await c: the task is suspended until c is answered *)
| Dropped (c : coro)      (* c was created and never awaited: its body never runs *)
| Yield (h : handle)      (* line 14: connection h is open and yielded *)
| Released (h : handle)   (* the async with of h has been left: its __aexit__
                             returned or raised an Exception *)
| ReadOpen (h : handle)   (* line 35: websocket.open is read *)
| Print (h : handle) (v : pyval)  (* line 37: print(response), pumping h *)
| LogError (line : string).       (* logging.error(line) *)

(** Program points at which the program waits for a collaborator, and the
    two ways a coroutine ends.  When an exception leaves [print_btc_ticker]
    while the generator is suspended at its [yield], the event loop closes
    the generator: an exception that is not an [Exception] is raised at the
    [yield] and the generator runs on until it ends or yields again. *)
Inductive state : Type :=
| Connecting (g : nat)       (* line 13, g connections opened so far *)
| Sending (h : handle)       (* line 33 *)
| CheckingOpen (h : handle)  (* line 35 *)
| Receiving (h : handle)     (* line 36 *)
| Printing (h : handle)      (* line 37 *)
| Closing (h : handle)       (* leaving the async with of line 13 *)
| Finalising (h : handle) (e : exn)
                             (* e left print_btc_ticker; the generator is being
                                closed and leaves the async with of h *)
| FinalConnecting (g : nat) (e : exn)
                             (* line 13 again, in the generator being closed *)
| Returned                   (* print_btc_ticker returned: the async for ended *)
| Propagated (e : exn).      (* e left print_btc_ticker, nothing is left to run *)

Definition config : Type := (state * list event)%type.

Definition emit (evs : list event) (c : config) : config :=
  (fst c, evs ++ snd c).

(** ** [websocket_generator] (lines 9-18) *)

(** Lines 11-13: top of [while True], entering the [async with]. *)
Definition websocket_generator_loop (g : nat) : config :=
  (Connecting g, [Await (Connect URL)]).

(** Lines 15-18: the handler.  [asyncio.sleep(retry_seconds)] is an
    expression statement: the coroutine object is built and dropped. *)
Definition websocket_generator_except (retry_seconds : nat) (e : exn) (g : nat) : config :=
  emit [LogError ("Websocket connection failed: " ++ text e)%string;
        Dropped (Sleep retry_seconds)]
       (websocket_generator_loop g).

(** The generator is resumed after its [yield] (line 14): control leaves
    the [async with], which closes the connection. *)
Definition websocket_generator_resume (h : handle) : config :=
  (Closing h, [Await (Close h)]).

(** The generator is closed while suspended at its [yield] (line 14): the
    exception raised there leaves the [async with], whose [__aexit__] is
    awaited with that exception pending. *)
Definition websocket_generator_aclose (h : handle) (e : exn) : config :=
  (Finalising h e, [Await (Close h)]).

(** Lines 11-13 and 15-18 in the generator being closed: it got past the
    exception raised at its [yield], because [__aexit__] returned a true
    value or raised an [Exception] that line 15 caught, and loops. *)
Definition websocket_generator_loop_closing (g : nat) (e : exn) : config :=
  (FinalConnecting g e, [Await (Connect URL)]).

Definition websocket_generator_except_closing
           (retry_seconds : nat) (e' : exn) (g : nat) (e : exn) : config :=
  emit [LogError ("Websocket connection failed: " ++ text e')%string;
        Dropped (Sleep retry_seconds)]
       (websocket_generator_loop_closing g e).

(** ** [print_btc_ticker] (lines 21-41) *)

(** Lines 24-33: the body of the [async for], given connection [h]. *)
Definition print_btc_ticker_body (h : handle) : config :=
  (Sending h, [Yield h; Await (Send h (dumps msg))]).

(** Line 35. *)
Definition print_btc_ticker_while (h : handle) : config :=
  (CheckingOpen h, [ReadOpen h]).

(** Lines 39-41: log, then [continue] asks the generator for the next
    connection. *)
Definition print_btc_ticker_except (e : exn) (h : handle) : config :=
  emit [LogError ("Error in print_btc_ticker: " ++ text e)%string]
       (websocket_generator_resume h).

(** [try: ... except Exception as e: handler] in the generator: an
    exception raised in the body runs the handler if it is an [Exception],
    and leaves the generator otherwise.  The [async for] itself is outside
    every [try] of [print_btc_ticker], so what leaves the generator leaves
    the program, and a generator that has ended needs no closing. *)
Definition except_Exception (e : exn) (handler : config) : config :=
  if is_ordinary e then handler else (Propagated e, []).

(** The [try] of lines 24-41: an [Exception] runs the handler; any other
    exception leaves [print_btc_ticker] with the generator suspended at its
    [yield], which the event loop then closes. *)
Definition print_btc_ticker_try (e : exn) (h : handle) : config :=
  if is_ordinary e then print_btc_ticker_except e h
  else websocket_generator_aclose h e.

(** One answer of a collaborator takes the program to its next call. *)
Definition step (s : state) (a : answer) : config :=
  match s, a with
  | Connecting g, Done _ => print_btc_ticker_body g
  | Connecting g, Throw e =>
      except_Exception e (websocket_generator_except default_retry_seconds e g)
  | Sending h, Done _ => print_btc_ticker_while h
  | CheckingOpen h, Done v =>
      if truthy v then (Receiving h, [Await (Recv h)])
      else websocket_generator_resume h
  | Receiving h, Done v => (Printing h, [Print h v])
  | Printing h, Done _ => print_btc_ticker_while h
  | Sending h, Throw e
  | CheckingOpen h, Throw e
  | Receiving h, Throw e
  | Printing h, Throw e => print_btc_ticker_try e h
  | Closing h, Done _ => emit [Released h] (websocket_generator_loop (S h))
  | Closing h, Throw e =>
      except_Exception e
        (emit [Released h] (websocket_generator_except default_retry_seconds e (S h)))
  | Finalising h e, Done v =>
      if truthy v then emit [Released h] (websocket_generator_loop_closing (S h) e)
      else (Propagated e, [Released h])
  | Finalising h e, Throw e' =>
      if is_ordinary e'
      then emit [Released h]
                (websocket_generator_except_closing default_retry_seconds e' (S h) e)
      else (Propagated e, [])
  | FinalConnecting g e, Done _ => (Propagated e, [Yield g])
  | FinalConnecting g e, Throw e' =>
      if is_ordinary e'
      then websocket_generator_except_closing default_retry_seconds e' g e
      else (Propagated e, [])
  | Returned, _ => (Returned, [])
  | Propagated e, _ => (Propagated e, [])
  end.

(** State reached, and calls made, when the collaborators answer [sc]. *)
Fixpoint exec (s : state) (sc : list answer) : state :=
  match sc with
  | [] => s
  | a :: sc' => exec (fst (step s a)) sc'
  end.

Fixpoint emitted (s : state) (sc : list answer) : list event :=
  match sc with
  | [] => []
  | a :: sc' => snd (step s a) ++ emitted (fst (step s a)) sc'
  end.

(** [asyncio.run(print_btc_ticker())]: the first pull of the [async for]
    starts the generator. *)
Definition start : config := websocket_generator_loop 0.

Definition print_btc_ticker (sc : list answer) : config :=
  (exec (fst start) sc, snd start ++ emitted (fst start) sc).

Definition state_after (sc : list answer) : state := fst (print_btc_ticker sc).
Definition trace (sc : list answer) : list event := snd (print_btc_ticker sc).

Definition refused : exn := mkExn Ordinary "refused".
Definition cancelled : exn := mkExn BaseOnly "cancelled".


(** ** Reading a script and a trace *)

(** No answer of the script is an external cancellation. *)
Definition is_cancel (a : answer) : bool :=
  match a with
  | Done _ => false
  | Throw e => negb (is_ordinary e)
  end.

Definition no_cancel (sc : list answer) : bool := forallb (fun a => negb (is_cancel a)) sc.

(** [print_btc_ticker] has not ended: it is waiting for a collaborator. *)
Definition running (s : state) : bool :=
  match s with
  | Finalising _ _ | FinalConnecting _ _ | Returned | Propagated _ => false
  | _ => true
  end.

(** Nothing is left to run, not even the closing of the generator. *)
Definition halted (s : state) : bool :=
  match s with
  | Returned | Propagated _ => true
  | _ => false
  end.

(** The exception that has left [print_btc_ticker]. *)
Definition escaped (s : state) : option exn :=
  match s with
  | Finalising _ e | FinalConnecting _ e | Propagated e => Some e
  | _ => None
  end.

(** Every occurrence of [b] in the trace has an [a] before it. *)
Definition precedes (a b : event) (tr : list event) : Prop :=
  forall pre post, tr = pre ++ b :: post -> In a pre.

(** The connection an event uses: it is yielded, a call is made on it, or a
    message received on it is printed. *)
Definition acts_on (ev : event) : option handle :=
  match ev with
  | Yield h | Await (Send h _) | ReadOpen h | Await (Recv h) | Print h _
  | Await (Close h) => Some h
  | _ => None
  end.

(** Every connection that [s] may still use is newer than [h]. *)
Definition beyond (h : handle) (s : state) : Prop :=
  match s with
  | Connecting g => h < g
  | Closing h' | Finalising h' _ => h <= h'
  | Sending h' | CheckingOpen h' | Receiving h' | Printing h' => h < h'
  | FinalConnecting g _ => h < g
  | Returned | Propagated _ => True
  end.

(** Frames sent on [h], messages printed while pumping [h]. *)
Fixpoint sent_on (h : handle) (tr : list event) : list string :=
  match tr with
  | [] => []
  | Await (Send h' f) :: tr' => (if Nat.eqb h' h then [f] else []) ++ sent_on h tr'
  | _ :: tr' => sent_on h tr'
  end.

Fixpoint delivered (h : handle) (tr : list event) : list pyval :=
  match tr with
  | [] => []
  | Print h' v :: tr' => (if Nat.eqb h' h then [v] else []) ++ delivered h tr'
  | _ :: tr' => delivered h tr'
  end.

(** Frames that [websocket.recv()] returned on [h]: the values answered
    while the program was at line 36 with connection [h]. *)
Fixpoint received (h : handle) (s : state) (sc : list answer) : list pyval :=
  match sc with
  | [] => []
  | a :: sc' =>
      match s, a with
      | Receiving h', Done v => if Nat.eqb h' h then [v] else []
      | _, _ => []
      end ++ received h (fst (step s a)) sc'
  end.




(** The text of the subscribe frame, quote by quote. *)
Definition subscribe_text : string :=
  ("{" ++ dq ++ "jsonrpc" ++ dq ++ ": " ++ dq ++ "2.0" ++ dq ++ ", "
       ++ dq ++ "method" ++ dq ++ ": " ++ dq ++ "public/subscribe" ++ dq ++ ", "
       ++ dq ++ "params" ++ dq ++ ": {" ++ dq ++ "channels" ++ dq ++ ": ["
       ++ dq ++ "ticker.BTC-PERPETUAL.100ms" ++ dq ++ "]}}")%string.

(** What the generator does between a failed attempt and the next one. *)
Definition retry_events (e : exn) : list event :=
  [LogError ("Websocket connection failed: " ++ text e)%string;
   Dropped (Sleep default_retry_seconds);
   Await (Connect URL)].

(** The only coroutines awaited are the four calls to the connection, with
    the constants of the module; the only one dropped is the sleep. *)
Definition well_formed (ev : event) : Prop :=
  match ev with
  | Await (Connect u) => u = URL
  | Await (Send _ f) => f = dumps msg
  | Await (Sleep _) => False
  | Dropped c => c = Sleep default_retry_seconds
  | _ => True
  end.

(** Number of connections opened when the program is at [s]. *)
Definition generation (s : state) : option nat :=
  match s with
  | Connecting g | FinalConnecting g _ => Some g
  | Sending h | CheckingOpen h | Receiving h | Printing h | Closing h
  | Finalising h _ => Some (S h)
  | Returned | Propagated _ => None
  end.

(** The receive loop of connection [h] is running. *)
Definition pumping (h : handle) (s : state) : Prop :=
  s = Sending h \/ s = CheckingOpen h \/ s = Receiving h \/ s = Printing h.

(** What is known of connection [h] between two steps. *)
Definition handshake_inv (h : handle) (s : state) (hist : list event) : Prop :=
  (forall g, generation s = Some g -> g <= h -> sent_on h hist = [])
  /\ (sent_on h hist = [] \/ sent_on h hist = [dumps msg])
  /\ precedes (Await (Send h (dumps msg))) (Await (Recv h)) hist
  /\ (forall v, precedes (Await (Send h (dumps msg))) (Print h v) hist)
  /\ (pumping h s -> In (Await (Send h (dumps msg))) hist).



(** ** Further readings of a trace *)

(** Connections yielded by the generator, in order. *)
Fixpoint yielded (tr : list event) : list handle :=
  match tr with
  | [] => []
  | Yield h :: tr' => h :: yielded tr'
  | _ :: tr' => yielded tr'
  end.

(** Lines written by [logging.error], in order. *)
Fixpoint log_lines (tr : list event) : list string :=
  match tr with
  | [] => []
  | LogError line :: tr' => line :: log_lines tr'
  | _ :: tr' => log_lines tr'
  end.

(** Exceptions that the collaborators raise in a script, in order. *)
Fixpoint raised (sc : list answer) : list exn :=
  match sc with
  | [] => []
  | Throw e :: sc' => e :: raised sc'
  | Done _ :: sc' => raised sc'
  end.

(** [line] is one of the two messages of the program (lines 16 and 40),
    formatted with [e]. *)
Definition reports (line : string) (e : exn) : Prop :=
  line = ("Websocket connection failed: " ++ text e)%string
  \/ line = ("Error in print_btc_ticker: " ++ text e)%string.

(** Number of times the [async with] of connection [h] was left. *)
Fixpoint closes (h : handle) (tr : list event) : nat :=
  match tr with
  | [] => 0
  | Await (Close h') :: tr' => (if Nat.eqb h' h then 1 else 0) + closes h tr'
  | _ :: tr' => closes h tr'
  end.

(** One uneventful session: the connection opens, the subscribe request is
    sent, the connection is found closed and its close returns. *)
Definition clean_session : list answer :=
  [Done PNone; Done PNone; Done (PBool false); Done PNone].

(** * The one-shot client of [example_websockets.py] *)

Module ExampleWebsockets.

(** Lines 9-15. *)
Definition msg : json :=
  JObj [ ("jsonrpc", JStr "2.0");
         ("method", JStr "public/ticker");
         ("params", JObj [ ("instrument_name", JStr "BTC-PERPETUAL") ]) ].

(** Program points of [print_btc_ticker] (lines 7-18).  The function has no
    [try]: an exception raised in the body of the [async with] leaves it
    through [__aexit__], which is awaited with that exception pending. *)
Inductive state : Type :=
| Connecting                      (* line 8 *)
| Sending                         (* line 16 *)
| Receiving                       (* line 17 *)
| Printing                        (* line 18 *)
| Closing (pending : option exn)  (* leaving the async with of line 8 *)
| Returned
| Propagated (e : exn).

Definition leave (pending : option exn) : state * list event :=
  (Closing pending, [Await (Close 0)]).

(** The module has the same [URL] (line 5).  When [__aexit__] returns, a
    pending exception is raised again unless the value returned is true. *)
Definition step (s : state) (a : answer) : state * list event :=
  match s, a with
  | Connecting, Done _ => (Sending, [Await (Send 0 (dumps msg))])
  | Connecting, Throw e => (Propagated e, [])
  | Sending, Done _ => (Receiving, [Await (Recv 0)])
  | Receiving, Done response => (Printing, [Print 0 response])
  | Printing, Done _ => leave None
  | Sending, Throw e | Receiving, Throw e | Printing, Throw e => leave (Some e)
  | Closing None, Done _ => (Returned, [])
  | Closing (Some e), Done v => if truthy v then (Returned, []) else (Propagated e, [])
  | Closing _, Throw e' => (Propagated e', [])
  | Returned, _ => (Returned, [])
  | Propagated e, _ => (Propagated e, [])
  end.

Fixpoint exec (s : state) (sc : list answer) : state :=
  match sc with
  | [] => s
  | a :: sc' => exec (fst (step s a)) sc'
  end.

Fixpoint emitted (s : state) (sc : list answer) : list event :=
  match sc with
  | [] => []
  | a :: sc' => snd (step s a) ++ emitted (fst (step s a)) sc'
  end.

(** [asyncio.run(print_btc_ticker())] *)
Definition print_btc_ticker (sc : list answer) : state * list event :=
  (exec Connecting sc, Await (Connect URL) :: emitted Connecting sc).

Definition finished (s : state) : bool :=
  match s with
  | Returned | Propagated _ => true
  | _ => false
  end.

(** The connection is open and the body of the [async with] is running. *)
Definition inside (s : state) : bool :=
  match s with
  | Sending | Receiving | Printing => true
  | _ => false
  end.

(** Calls that the program can still make from [s]. *)
Definition remaining (s : state) : nat :=
  match s with
  | Connecting => 5
  | Sending => 4
  | Receiving => 3
  | Printing => 2
  | Closing _ => 1
  | Returned | Propagated _ => 0
  end.

End ExampleWebsockets.

(** * Printing a text file: [example_async.py] and [example_context.py] *)

Module ExampleFiles.

(** The text of the file as Python reads it in mode "r", a sequence of
    code points (below 256 here). *)
Definition text : Type := list ascii.

Definition newline : ascii := "010"%char.

(** [str.isspace] on one character: the characters that [str.strip()]
    removes. *)
Definition isspace (c : ascii) : bool :=
  let n := nat_of_ascii c in
  (Nat.leb 9 n && Nat.leb n 13) || (Nat.leb 28 n && Nat.leb n 32)
  || Nat.eqb n 133 || Nat.eqb n 160.

Fixpoint lstrip (s : text) : text :=
  match s with
  | [] => []
  | c :: s' => if isspace c then lstrip s' else s
  end.

Fixpoint rstrip (s : text) : text :=
  match s with
  | [] => []
  | c :: s' =>
      match rstrip s' with
      | [] => if isspace c then [] else [c]
      | r => c :: r
      end
  end.

(** [line.strip()] *)
Definition strip (s : text) : text := lstrip (rstrip s).

(** [content.split("\n")]: the pieces between the newlines; there is always
    at least one. *)
Fixpoint split_newline (s : text) : list text :=
  match s with
  | [] => [[]]
  | c :: s' =>
      if Ascii.eqb c newline then [] :: split_newline s'
      else match split_newline s' with
           | [] => [[c]]
           | p :: ps => (c :: p) :: ps
           end
  end.

(** [for line in file]: the lines of the file, each with its newline; the
    last one has none when the file does not end with a newline. *)
Fixpoint readlines (s : text) : list text :=
  match s with
  | [] => []
  | c :: s' =>
      if Ascii.eqb c newline then [c] :: readlines s'
      else match readlines s' with
           | [] => [[c]]
           | l :: ls => (c :: l) :: ls
           end
  end.

(** [print_duote_quote] of [example_async.py], lines 6-8: what is
    printed, given the content that [file.read()] returned.  (The function
    of the same name in [example_generators.py] is another matter: that
    module never imports [aiofiles], so its line 5 raises [NameError] and
    nothing is read or printed; it is not what is embedded here.) *)
Definition print_duote_quote (content : text) : list text :=
  map strip (split_newline content).

(** [example_context.py], lines 4-6 and lines 12-13: what either loop
    prints, given the content of the file. *)
Definition print_file_lines (content : text) : list text :=
  map strip (readlines content).

(** The file is empty or ends with a newline. *)
Definition ends_with_newline (content : text) : bool :=
  match content with
  | [] => true
  | _ => Ascii.eqb (last content newline) newline
  end.

(** The lines that the pieces of [split_newline] stand for. *)
Fixpoint lines_of_pieces (ps : list text) : list text :=
  match ps with
  | [] => []
  | [p] => match p with [] => [] | _ => [p] end
  | p :: ps' => (p ++ [newline]) :: lines_of_pieces ps'
  end.

End ExampleFiles.

(** * The generator of [example_generators.py] *)

Module ExampleGenerators.

(** What [next(gen)] does: it returns the value yielded or raises
    [StopIteration]. *)
Inductive outcome : Type :=
| Yielded (n : nat)
| StopIteration.

(** [simple_generator] (lines 10-13) is suspended before its first
    statement, after one of its three [yield], or has returned. *)
Inductive generator : Type :=
| Created
| After1
| After2
| After3
| Finished.

Definition simple_generator : generator := Created.

Definition next (gen : generator) : outcome * generator :=
  match gen with
  | Created => (Yielded 1, After1)
  | After1 => (Yielded 2, After2)
  | After2 => (Yielded 3, After3)
  | After3 => (StopIteration, Finished)
  | Finished => (StopIteration, Finished)
  end.

(** The outcomes of [n] successive calls of [next]. *)
Fixpoint nexts (n : nat) (gen : generator) : list outcome :=
  match n with
  | 0 => []
  | S n' => fst (next gen) :: nexts n' (snd (next gen))
  end.

End ExampleGenerators.

(** * Properties *)

(** The endpoint refuses twice, then accepts; two frames arrive and the
    peer closes. *)
Example refused_twice_then_streaming :
  print_btc_ticker
    [Throw refused; Throw refused; Done PNone; Done PNone;
     Done (PBool true); Done (PStr "tick 1"); Done PNone;
     Done (PBool true); Done (PStr "tick 2"); Done PNone;
     Done (PBool false)]
  = (Closing 0,
     [Await (Connect URL);
      LogError "Websocket connection failed: refused"; Dropped (Sleep 5);
      Await (Connect URL);
      LogError "Websocket connection failed: refused"; Dropped (Sleep 5);
      Await (Connect URL);
      Yield 0; Await (Send 0 subscribe_text);
      ReadOpen 0; Await (Recv 0); Print 0 (PStr "tick 1");
      ReadOpen 0; Await (Recv 0); Print 0 (PStr "tick 2");
      ReadOpen 0; Await (Close 0)]).
Proof. reflexivity. Qed.

(** A cancellation while a connection is pumped: [print_btc_ticker] ends,
    and the generator, suspended at its [yield], is closed by the event
    loop, which leaves the [async with] of the connection. *)
Example cancelled_while_receiving :
  print_btc_ticker
    [Done PNone; Done PNone; Done (PBool true); Throw cancelled; Done PNone]
  = (Propagated cancelled,
     [Await (Connect URL); Yield 0; Await (Send 0 subscribe_text);
      ReadOpen 0; Await (Recv 0); Await (Close 0); Released 0]).
Proof. reflexivity. Qed.

(** The same, when the close raises an [Exception]: line 15 catches it and
    the generator being closed connects again; were it to yield, the
    closing ends there and the new connection stays open. *)
Example cancelled_then_close_fails :
  print_btc_ticker
    [Done PNone; Done PNone; Done (PBool true); Throw cancelled;
     Throw refused; Throw refused; Done PNone]
  = (Propagated cancelled,
     [Await (Connect URL); Yield 0; Await (Send 0 subscribe_text);
      ReadOpen 0; Await (Recv 0); Await (Close 0); Released 0;
      LogError "Websocket connection failed: refused"; Dropped (Sleep 5);
      Await (Connect URL);
      LogError "Websocket connection failed: refused"; Dropped (Sleep 5);
      Await (Connect URL); Yield 1]).
Proof. reflexivity. Qed.

(** [json.dumps] escapes the quote, the backslash and control characters. *)
Example dumps_escapes :
  dumps (JArr [JStr (String "034"%char (String "092"%char (String "010"%char "a")))])
  = ("[" ++ dq ++ bs ++ dq ++ bs ++ bs ++ bs ++ "n" ++ "a" ++ dq ++ "]")%string.
Proof. reflexivity. Qed.

#[local] Arguments String.append : simpl never.
#[local] Arguments dumps : simpl never.

Ltac by_step s a :=
  let v := fresh "v" in
  let t := fresh "t" in
  destruct s; destruct a as [v | [[|] t]]; simpl;
  try match goal with |- context [truthy ?x] => destruct (truthy x); simpl end.

(** ** Runs *)

Lemma exec_app (sc1 sc2 : list answer) (s : state) :
  exec s (sc1 ++ sc2) = exec (exec s sc1) sc2.
Proof.
  revert s; induction sc1 as [|a sc1 IH]; intros s; simpl; [reflexivity | apply IH].
Qed.

Lemma emitted_app (sc1 sc2 : list answer) (s : state) :
  emitted s (sc1 ++ sc2) = emitted s sc1 ++ emitted (exec s sc1) sc2.
Proof.
  revert s; induction sc1 as [|a sc1 IH]; intros s; simpl; [reflexivity|].
  rewrite IH, app_assoc; reflexivity.
Qed.

Lemma state_after_app (sc1 sc2 : list answer) :
  state_after (sc1 ++ sc2) = exec (state_after sc1) sc2.
Proof. unfold state_after, print_btc_ticker; simpl; apply exec_app. Qed.

Lemma trace_app (sc1 sc2 : list answer) :
  trace (sc1 ++ sc2) = trace sc1 ++ emitted (state_after sc1) sc2.
Proof.
  unfold trace, state_after, print_btc_ticker; simpl.
  rewrite emitted_app; reflexivity.
Qed.

Lemma stopped_stays (s : state) (sc : list answer) :
  halted s = true -> exec s sc = s /\ emitted s sc = [].
Proof.
  intros Hs; induction sc as [|a sc [IH1 IH2]]; [split; reflexivity|].
  destruct s; try discriminate Hs; simpl; rewrite IH1, IH2; split; reflexivity.
Qed.

(** A property of the state and of the calls made so far that every step
    keeps holds along every run. *)
Section Invariant.

Variable I : state -> list event -> Prop.

Hypothesis I_step : forall s a hist,
    I s hist -> I (fst (step s a)) (hist ++ snd (step s a)).

Lemma invariant_from (sc : list answer) :
  forall s hist, I s hist -> I (exec s sc) (hist ++ emitted s sc).
Proof.
  induction sc as [|a sc IH]; intros s hist H; simpl.
  - rewrite app_nil_r; exact H.
  - rewrite app_assoc; apply IH, I_step, H.
Qed.

Lemma invariant (sc : list answer) :
  I (fst start) (snd start) -> I (state_after sc) (trace sc).
Proof. intros H; apply (invariant_from sc _ _ H). Qed.

End Invariant.

Lemma ended_stays (sc : list answer) :
  forall s, running s = false -> running (exec s sc) = false.
Proof.
  induction sc as [|a sc IH]; intros s Hs; [exact Hs|].
  apply IH; revert Hs; by_step s a; intros Hs; try discriminate Hs; reflexivity.
Qed.

(** The program has stopped exactly when a cancellation was answered. *)
Lemma running_exec (sc : list answer) :
  forall s, running s = true -> running (exec s sc) = no_cancel sc.
Proof.
  induction sc as [|a sc IH]; intros s Hs; simpl; [exact Hs|].
  destruct (is_cancel a) eqn:Ha; simpl.
  - apply ended_stays.
    destruct a as [v | [[|] t]]; try discriminate Ha; destruct s; try discriminate Hs; reflexivity.
  - apply IH.
    by_step s a; try discriminate Hs; try discriminate Ha; reflexivity.
Qed.

Lemma running_state_after (sc : list answer) :
  running (state_after sc) = no_cancel sc.
Proof. apply running_exec; reflexivity. Qed.

(** [print_btc_ticker] never returns. *)
Lemma never_returns (sc : list answer) : state_after sc <> Returned.
Proof.
  apply (invariant (fun s _ => s <> Returned)); [|discriminate].
  intros s a _ Hs; by_step s a; congruence.
Qed.

(** What has left [print_btc_ticker] stays the same while the generator is
    closed. *)
Lemma escaped_stays (sc : list answer) :
  forall s e, escaped s = Some e -> escaped (exec s sc) = Some e.
Proof.
  induction sc as [|a sc IH]; intros s e Hs; [exact Hs|].
  apply IH; revert Hs; by_step s a; intros Hs; try discriminate Hs; exact Hs.
Qed.



Ltac in_cases H :=
  simpl in H;
  repeat match type of H with
         | _ \/ _ => destruct H as [H | H]
         | False => contradiction
         end.

Lemma in_emitted (ev : event) (sc : list answer) :
  forall s, In ev (emitted s sc) -> exists s' a, In ev (snd (step s' a)).
Proof.
  induction sc as [|a sc IH]; intros s H; simpl in H; [contradiction|].
  apply in_app_or in H; destruct H as [H | H]; [exists s, a; exact H | exact (IH _ H)].
Qed.

Lemma in_trace (ev : event) (sc : list answer) :
  In ev (trace sc) -> ev = Await (Connect URL) \/ exists s a, In ev (snd (step s a)).
Proof.
  unfold trace, print_btc_ticker; simpl; intros [H | H];
    [left; symmetry; exact H | right; exact (in_emitted _ _ _ H)].
Qed.

Lemma step_well_formed (s : state) (a : answer) (ev : event) :
  In ev (snd (step s a)) -> well_formed ev.
Proof.
  by_step s a; intros H; in_cases H; subst; simpl; auto.
Qed.

Lemma trace_well_formed (sc : list answer) (ev : event) :
  In ev (trace sc) -> well_formed ev.
Proof.
  intros H; destruct (in_trace _ _ H) as [-> | (s & a & Hs)];
    [reflexivity | exact (step_well_formed _ _ _ Hs)].
Qed.

(** A connection attempt that succeeds yields the connection, and the
    subscribe frame is awaited on it in the same step. *)
Lemma connected_step (sc : list answer) (g : nat) (v : pyval) :
  state_after sc = Connecting g ->
  trace (sc ++ [Done v]) = trace sc ++ [Yield g; Await (Send g (dumps msg))].
Proof. intros Hs; rewrite trace_app, Hs; reflexivity. Qed.

(** ** Retrying *)

Lemma retry_run (errs : list exn) (g : nat) :
  forallb is_ordinary errs = true ->
  exec (Connecting g) (map Throw errs) = Connecting g
  /\ emitted (Connecting g) (map Throw errs) = flat_map retry_events errs.
Proof.
  induction errs as [|e errs IH]; simpl; intros H; [split; reflexivity|].
  apply andb_prop in H; destruct H as [He H]; destruct (IH H) as [IH1 IH2].
  unfold except_Exception; rewrite He; simpl; rewrite IH1, IH2; split; reflexivity.
Qed.



(** C2 (the code departs from it): after a failed attempt the generator
    builds [asyncio.sleep(retry_seconds)] and drops it; the next attempt
    follows without any suspension, and no run ever awaits a sleep. *)
Theorem C2_retry_delay_not_awaited :
  print_btc_ticker [Throw refused]
  = (Connecting 0,
     [Await (Connect URL);
      LogError "Websocket connection failed: refused";
      Dropped (Sleep 5);
      Await (Connect URL)])
  /\ forall sc d, ~ In (Await (Sleep d)) (trace sc).
Proof.
  split; [reflexivity|].
  intros sc d H; exact (trace_well_formed _ _ H).
Qed.

(** ** The subscribe frame *)

(** C7: the frame sent on each new connection is [json.dumps(msg)], the
    JSON object with "jsonrpc", "method" and "params", whose channel list
    is the one ticker channel: whenever a connection attempt succeeds, that
    frame is the next thing awaited, on the new connection; no other frame
    is ever sent. *)
Theorem C7_subscribe_frame (sc rest : list answer) (g : nat) (v : pyval) :
  state_after sc = Connecting g ->
  trace (sc ++ [Done v]) = trace sc ++ [Yield g; Await (Send g subscribe_text)]
  /\ In (Await (Send g subscribe_text)) (trace (sc ++ Done v :: rest))
  /\ (forall sc' h f, In (Await (Send h f)) (trace sc') -> f = subscribe_text)
  /\ subscribe_text
     = dumps (JObj [ ("jsonrpc", JStr "2.0");
                     ("method", JStr "public/subscribe");
                     ("params",
                      JObj [ ("channels", JArr [JStr "ticker.BTC-PERPETUAL.100ms"]) ]) ]).
Proof.
  intros Hs; split; [|split; [|split]].
  - exact (connected_step sc g v Hs).
  - rewrite trace_app, Hs; apply in_or_app; right; simpl; auto.
  - intros sc' h f Hf; exact (trace_well_formed _ _ Hf).
  - reflexivity.
Qed.

Lemma C7_subscribe_frame_witness :
  state_after [Throw refused; Done PNone; Throw refused; Done PNone] = Connecting 1
  /\ In (Await (Send 1 subscribe_text))
        (trace ([Throw refused; Done PNone; Throw refused; Done PNone]
                  ++ Done PNone :: [Done (PBool true)])).
Proof.
  split; [reflexivity|].
  exact (proj1 (proj2 (C7_subscribe_frame
                         [Throw refused; Done PNone; Throw refused; Done PNone]
                         [Done (PBool true)] 1 PNone eq_refl))).
Defined.

(** ** Cancellation *)

Lemma cancel_stops (s : state) (c : exn) :
  (exists g, s = Connecting g) \/ (exists h, s = Closing h) ->
  is_ordinary c = false -> step s (Throw c) = (Propagated c, []).
Proof.
  intros [[g ->] | [h ->]] Hc; simpl; unfold except_Exception; rewrite Hc; reflexivity.
Qed.

Lemma cancel_closes (s : state) (h : handle) (c : exn) :
  pumping h s -> is_ordinary c = false ->
  step s (Throw c) = (Finalising h c, [Await (Close h)]).
Proof.
  intros [-> | [-> | [-> | ->]]] Hc; simpl;
    unfold print_btc_ticker_try; rewrite Hc; reflexivity.
Qed.

(** C6, counterexample: a shutdown requested after a failed attempt can
    reach the program only at its next suspension point, which is the next
    connection attempt (there is no wait to interrupt, as line 17 is not
    awaited); the run then ends by the cancellation leaving
    [print_btc_ticker], not by the generator running out of items. *)
Lemma C6_shutdown_during_backoff_counterexample :
  trace [Throw refused; Throw cancelled]
  = [Await (Connect URL);
     LogError "Websocket connection failed: refused";
     Dropped (Sleep 5);
     Await (Connect URL)]
  /\ state_after [Throw refused; Throw cancelled] = Propagated cancelled
  /\ state_after [Throw refused; Throw cancelled] <> Returned.
Proof. repeat split; discriminate. Qed.

(** C6, as the code has it: a cancellation raised at any call of a running
    program ends [print_btc_ticker] there, and is what leaves it.  Raised by
    connect or by close, it ends the generator too and no call is made
    after it.  Raised while a connection is pumped, it leaves the generator
    suspended at its [yield]; the generator is closed, which awaits the
    close of that connection, and when that close returns a false value
    nothing follows, in particular no connection attempt.  No run ends by
    the generator running out of connections. *)
Theorem C6_cancellation_ends_run (sc rest : list answer) (c : exn) :
  running (state_after sc) = true ->
  is_ordinary c = false ->
  escaped (state_after (sc ++ Throw c :: rest)) = Some c
  /\ ((exists g, state_after sc = Connecting g) \/ (exists h, state_after sc = Closing h) ->
      print_btc_ticker (sc ++ Throw c :: rest) = (Propagated c, trace sc))
  /\ (forall h v, pumping h (state_after sc) -> truthy v = false ->
                  print_btc_ticker (sc ++ Throw c :: Done v :: rest)
                  = (Propagated c, trace sc ++ [Await (Close h); Released h]))
  /\ (forall sc', state_after sc' <> Returned).
Proof.
  intros Hs Hc.
  assert (Hpair : forall sc', print_btc_ticker sc' = (state_after sc', trace sc'))
    by reflexivity.
  split; [|split; [|split]].
  - rewrite state_after_app; simpl; apply escaped_stays.
    revert Hs; destruct (state_after sc); intros Hs; try discriminate Hs; simpl;
      unfold except_Exception, print_btc_ticker_try; rewrite Hc; reflexivity.
  - intros Hg; rewrite Hpair, state_after_app, trace_app; simpl.
    rewrite (cancel_stops _ _ Hg Hc); simpl.
    destruct (stopped_stays (Propagated c) rest eq_refl) as [-> ->].
    rewrite app_nil_r; reflexivity.
  - intros h v Hp Hv; rewrite Hpair, state_after_app, trace_app; simpl.
    rewrite (cancel_closes _ _ _ Hp Hc); simpl; rewrite Hv; simpl.
    destruct (stopped_stays (Propagated c) rest eq_refl) as [-> ->].
    reflexivity.
  - exact never_returns.
Qed.

Lemma C6_cancellation_ends_run_witness :
  running (state_after [Done PNone; Done PNone]) = true
  /\ is_ordinary cancelled = false
  /\ print_btc_ticker ([Done PNone; Done PNone] ++ Throw cancelled :: Done PNone :: [])
     = (Propagated cancelled,
        trace [Done PNone; Done PNone] ++ [Await (Close 0); Released 0]).
Proof.
  split; [reflexivity | split; [reflexivity|]].
  apply (proj1 (proj2 (proj2 (C6_cancellation_ends_run
                                [Done PNone; Done PNone] [] cancelled eq_refl eq_refl)))
               0 PNone); [right; left; reflexivity | reflexivity].
Defined.

(** ** No way out *)

Lemma after_failure (s : state) (e : exn) (a : answer) :
  running s = true -> is_ordinary e = true -> is_cancel a = false ->
  In (Await (Connect URL)) (emitted s [Throw e; a]).
Proof.
  intros Hs He Ha.
  destruct s; try discriminate Hs;
    destruct e as [[|] t]; try discriminate He;
    destruct a as [v | [[|] t']]; try discriminate Ha; simpl;
    repeat first [left; reflexivity | right].
Qed.

(** C10: without an external cancellation the program never ends: it is
    always waiting for a collaborator, it has no way to return, and a
    failure at any call (connect, send, open, receive, print, close) is
    followed, at most one answer later, by a new connection attempt. *)
Theorem C10_never_terminates (sc : list answer) :
  no_cancel sc = true ->
  running (state_after sc) = true
  /\ (forall sc', state_after sc' <> Returned)
  /\ (forall sc1 e a sc2,
         sc = sc1 ++ Throw e :: a :: sc2 ->
         In (Await (Connect URL)) (emitted (state_after sc1) [Throw e; a])).
Proof.
  intros H; split; [|split].
  - rewrite running_state_after; exact H.
  - exact never_returns.
  - intros sc1 e a sc2 ->.
    unfold no_cancel in H; rewrite forallb_app in H; simpl in H.
    apply andb_prop in H; destruct H as [H1 H]; apply andb_prop in H; destruct H as [He H].
    apply andb_prop in H; destruct H as [Ha _].
    apply after_failure.
    + rewrite running_state_after; exact H1.
    + apply negb_true_iff in He; apply negb_false_iff in He; exact He.
    + apply negb_true_iff in Ha; exact Ha.
Qed.

Lemma C10_never_terminates_witness :
  no_cancel [Done PNone; Done PNone; Done (PBool true); Throw refused; Done PNone] = true
  /\ running (state_after
                [Done PNone; Done PNone; Done (PBool true); Throw refused; Done PNone])
     = true.
Proof.
  split; [reflexivity|].
  exact (proj1 (C10_never_terminates
                  [Done PNone; Done PNone; Done (PBool true); Throw refused; Done PNone]
                  eq_refl)).
Defined.

(** ** Order of events *)

Lemma precedes_nil (a b : event) : precedes a b [].
Proof. intros [|x pre] post E; discriminate E. Qed.

Lemma precedes_app (a b : event) (t1 t2 : list event) :
  precedes a b t1 -> In a t1 \/ precedes a b t2 -> precedes a b (t1 ++ t2).
Proof.
  intros H1 H2 pre post E.
  destruct (app_eq_app _ _ _ _ E) as [l [[E1 E2] | [E1 E2]]].
  - destruct l as [|x l]; simpl in E2.
    + rewrite app_nil_r in E1; subst t1.
      destruct H2 as [H2 | H2]; [exact H2 | destruct (H2 [] post (eq_sym E2))].
    + injection E2 as <- _; exact (H1 _ _ E1).
  - subst pre; apply in_or_app.
    destruct H2 as [H2 | H2]; [left; exact H2 | right; exact (H2 _ _ E2)].
Qed.

Lemma precedes_cons (a b x : event) (t : list event) :
  x <> b -> x = a \/ precedes a b t -> precedes a b (x :: t).
Proof.
  intros Hx H [|y pre] post E; simpl in E; injection E as E1 E2.
  - contradiction.
  - subst y; destruct H as [-> | H]; [left; reflexivity | right; exact (H _ _ E2)].
Qed.

(** ** After a connection is given up *)

Lemma beyond_step (h : handle) (s : state) (a : answer) :
  beyond h s ->
  beyond h (fst (step s a))
  /\ forall ev h', In ev (snd (step s a)) -> acts_on ev = Some h' -> h < h'.
Proof.
  by_step s a; intros Hs; (split; [simpl in *; lia|]);
    intros ev h' H E; in_cases H; subst ev; simpl in *;
    try discriminate E; injection E as <-; lia.
Qed.

Lemma beyond_emitted (h : handle) (sc : list answer) :
  forall s, beyond h s ->
            forall ev h', In ev (emitted s sc) -> acts_on ev = Some h' -> h < h'.
Proof.
  induction sc as [|a sc IH]; intros s Hs ev h' H E; simpl in H; [contradiction|].
  destruct (beyond_step h s a Hs) as [Hs' Hev].
  apply in_app_or in H; destruct H as [H | H]; [exact (Hev _ _ H E) | exact (IH _ Hs' _ _ H E)].
Qed.

(** Once the generator is closing a connection, whatever uses a connection
    afterwards comes after a new connection attempt. *)
Lemma reconnect_first (h : handle) (rest : list answer) (ev : event) :
  acts_on ev <> None ->
  precedes (Await (Connect URL)) ev (emitted (Closing h) rest).
Proof.
  intros Hev; destruct rest as [|a rest]; [apply precedes_nil|].
  assert (Hne : forall x, acts_on x = None -> x <> ev) by (intros x Hx ->; contradiction).
  destruct a as [v | [[|] t]]; simpl.
  - repeat (apply precedes_cons;
            [apply Hne; reflexivity | first [left; reflexivity | right]]).
  - repeat (apply precedes_cons;
            [apply Hne; reflexivity | first [left; reflexivity | right]]).
  - rewrite (proj2 (stopped_stays (Propagated _) rest eq_refl)); apply precedes_nil.
Qed.

(** The handler of [print_btc_ticker], run at a failure on connection [h]. *)
Lemma pump_failure (sc rest : list answer) (s : state) (h : handle) (e : exn) :
  state_after sc = s ->
  s = Sending h \/ s = CheckingOpen h \/ s = Receiving h \/ s = Printing h ->
  is_ordinary e = true ->
  trace (sc ++ Throw e :: rest)
  = trace sc ++ LogError ("Error in print_btc_ticker: " ++ text e)%string
             :: Await (Close h) :: emitted (Closing h) rest.
Proof.
  intros Hs Hcase He; rewrite trace_app, Hs; f_equal.
  destruct Hcase as [-> | [-> | [-> | ->]]]; simpl;
    unfold print_btc_ticker_try; rewrite He; reflexivity.
Qed.

(** C1, counterexample: [print] fails on the first message of connection
    0; the connection is closed, a new one is opened and the next message
    is received and printed on connection 1. *)
Lemma C1_consumer_failure_counterexample :
  state_after [Done PNone; Done PNone; Done (PBool true); Done (PStr "tick 1")]
  = Printing 0
  /\ trace [Done PNone; Done PNone; Done (PBool true); Done (PStr "tick 1");
            Throw (mkExn Ordinary "broken pipe");
            Done PNone; Done PNone; Done PNone; Done (PBool true); Done (PStr "tick 2")]
     = [Await (Connect URL); Yield 0; Await (Send 0 subscribe_text);
        ReadOpen 0; Await (Recv 0); Print 0 (PStr "tick 1");
        LogError "Error in print_btc_ticker: broken pipe";
        Await (Close 0); Released 0;
        Await (Connect URL); Yield 1; Await (Send 1 subscribe_text);
        ReadOpen 1; Await (Recv 1); Print 1 (PStr "tick 2")].
Proof. split; reflexivity. Qed.

(** C1, as the code has it: a failure of [print] is logged once and ends
    the receive loop of that connection.  The generator closes the
    connection; nothing is sent, received or printed on it again, and
    whatever is received or printed later is on a newer connection, after a
    new connection attempt. *)
Theorem C1_consumer_failure_reconnects
        (sc rest : list answer) (h : handle) (e : exn) :
  state_after sc = Printing h ->
  is_ordinary e = true ->
  trace (sc ++ Throw e :: rest)
  = trace sc ++ LogError ("Error in print_btc_ticker: " ++ text e)%string
             :: Await (Close h) :: emitted (Closing h) rest
  /\ (forall ev h', In ev (emitted (Closing h) rest) -> acts_on ev = Some h' -> h < h')
  /\ (forall ev, acts_on ev <> None ->
                 precedes (Await (Connect URL)) ev (emitted (Closing h) rest)).
Proof.
  intros Hs He; split; [|split].
  - apply (pump_failure sc rest (Printing h) h e Hs); auto.
  - apply beyond_emitted; simpl; lia.
  - intros ev Hev; apply reconnect_first; exact Hev.
Qed.

Lemma C1_consumer_failure_reconnects_witness :
  state_after [Done PNone; Done PNone; Done (PBool true); Done (PStr "tick 1")]
  = Printing 0
  /\ is_ordinary refused = true
  /\ forall ev h', In ev (emitted (Closing 0) [Done PNone; Done PNone]) ->
                   acts_on ev = Some h' -> 0 < h'.
Proof.
  split; [reflexivity | split; [reflexivity|]].
  exact (proj1 (proj2 (C1_consumer_failure_reconnects
                         [Done PNone; Done PNone; Done (PBool true); Done (PStr "tick 1")]
                         [Done PNone; Done PNone] 0 refused eq_refl eq_refl))).
Defined.

(** C5: an [Exception] raised by [websocket.recv()] is logged once and ends
    the receive loop: the next thing the program does is to resume the
    generator, which closes the connection, with no sleep in between; no
    call is made on that connection afterwards, in particular no second
    receive. *)
Theorem C5_receive_failure_ends_pump
        (sc rest : list answer) (h : handle) (e : exn) :
  state_after sc = Receiving h ->
  is_ordinary e = true ->
  trace (sc ++ Throw e :: rest)
  = trace sc ++ LogError ("Error in print_btc_ticker: " ++ text e)%string
             :: Await (Close h) :: emitted (Closing h) rest
  /\ ~ In (Await (Recv h)) (emitted (Closing h) rest)
  /\ (forall ev h', In ev (emitted (Closing h) rest) -> acts_on ev = Some h' -> h < h')
  /\ (forall d, ~ In (Await (Sleep d)) (trace (sc ++ Throw e :: rest))
                /\ ~ In (Dropped (Sleep d))
                     [LogError ("Error in print_btc_ticker: " ++ text e)%string;
                      Await (Close h)]).
Proof.
  intros Hs He.
  assert (Hb : forall ev h', In ev (emitted (Closing h) rest) ->
                             acts_on ev = Some h' -> h < h')
    by (apply beyond_emitted; simpl; lia).
  split; [|split; [|split]].
  - apply (pump_failure sc rest (Receiving h) h e Hs); auto.
  - intros H; specialize (Hb _ h H eq_refl); lia.
  - exact Hb.
  - intros d; split.
    + intros H; exact (trace_well_formed _ _ H).
    + intros H; in_cases H; discriminate H.
Qed.

Lemma C5_receive_failure_ends_pump_witness :
  state_after [Done PNone; Done PNone; Done (PBool true)] = Receiving 0
  /\ is_ordinary refused = true
  /\ ~ In (Await (Recv 0)) (emitted (Closing 0) [Done PNone; Done PNone; Done PNone]).
Proof.
  split; [reflexivity | split; [reflexivity|]].
  exact (proj1 (proj2 (C5_receive_failure_ends_pump
                         [Done PNone; Done PNone; Done (PBool true)]
                         [Done PNone; Done PNone; Done PNone] 0 refused
                         eq_refl eq_refl))).
Defined.

(** ** Messages of one connection *)

Lemma delivered_app (h : handle) (t1 t2 : list event) :
  delivered h (t1 ++ t2) = delivered h t1 ++ delivered h t2.
Proof.
  induction t1 as [|ev t1 IH]; [reflexivity|].
  destruct ev; simpl; rewrite ?IH, ?app_assoc; reflexivity.
Qed.

Lemma delivered_emitted (h : handle) (sc : list answer) :
  forall s, delivered h (emitted s sc) = received h s sc.
Proof.
  induction sc as [|a sc IH]; intros s; [reflexivity|].
  simpl; rewrite delivered_app, IH; f_equal.
  by_step s a; try reflexivity; destruct (Nat.eqb _ h); reflexivity.
Qed.

(** C8: the messages printed while pumping a connection are the frames
    that [websocket.recv()] returned on that connection, unchanged and in
    the same order.  The statement is per connection: it relates nothing
    across a reconnect. *)
Theorem C8_delivery_in_order (sc : list answer) (h : handle) :
  delivered h (trace sc) = received h (fst start) sc.
Proof. exact (delivered_emitted h sc (fst start)). Qed.

(** ** The handshake *)

Lemma sent_on_app (h : handle) (t1 t2 : list event) :
  sent_on h (t1 ++ t2) = sent_on h t1 ++ sent_on h t2.
Proof.
  induction t1 as [|ev t1 IH]; [reflexivity|].
  destruct ev as [[]| | | | | |]; simpl; rewrite ?IH, ?app_assoc; reflexivity.
Qed.

Lemma handshake_inv_step (h : handle) (s : state) (a : answer) (hist : list event) :
  handshake_inv h s hist ->
  handshake_inv h (fst (step s a)) (hist ++ snd (step s a)).
Proof.
  intros (A & B & C1 & C2 & D).
  assert (Hnew : sent_on h (snd (step s a)) = []
                 \/ (s = Connecting h /\ sent_on h (snd (step s a)) = [dumps msg])).
  { by_step s a; auto.
    destruct (Nat.eqb_spec g h) as [-> | Hne]; auto. }
  assert (Hgen : forall g', generation (fst (step s a)) = Some g' ->
                            exists g, generation s = Some g /\ g <= g').
  { by_step s a; intros g' Hg; try discriminate Hg; injection Hg as <-;
      eexists; split; try reflexivity; lia. }
  assert (D' : pumping h (fst (step s a)) ->
               In (Await (Send h (dumps msg))) (hist ++ snd (step s a))).
  { unfold pumping in *; revert D; by_step s a; intros D [H | [H | [H | H]]];
      try discriminate H; injection H as ->; apply in_or_app;
      first [left; apply D; tauto | right; simpl; tauto]. }
  split; [|split; [|split; [|split]]].
  - intros g' Hg Hle; rewrite sent_on_app.
    destruct (Hgen g' Hg) as (g & Hs & Hgg).
    rewrite (A g Hs ltac:(lia)).
    destruct Hnew as [-> | [-> Hn]]; [reflexivity|].
    exfalso; revert Hg Hn; destruct a as [w | [[|] t]]; simpl; intros Hg Hn;
      try discriminate Hn; injection Hg as <-; lia.
  - rewrite sent_on_app.
    destruct Hnew as [-> | [-> Hn]]; [rewrite app_nil_r; exact B|].
    rewrite Hn, (A h eq_refl (Nat.le_refl h)); right; reflexivity.
  - apply precedes_app; [exact C1|].
    revert D; unfold pumping; by_step s a; intros D;
      try (right; repeat (apply precedes_cons; [discriminate|right]); apply precedes_nil).
    destruct (Nat.eq_dec h0 h) as [-> | Hne]; [left; apply D; tauto|].
    right; apply precedes_cons; [congruence | right; apply precedes_nil].
  - intros w; apply precedes_app; [exact (C2 w)|].
    revert D; unfold pumping; by_step s a; intros D;
      try (right; repeat (apply precedes_cons; [discriminate|right]); apply precedes_nil).
    destruct (Nat.eq_dec h0 h) as [-> | Hne]; [left; apply D; tauto|].
    right; apply precedes_cons; [congruence | right; apply precedes_nil].
  - exact D'.
Qed.

Lemma handshake_inv_start (h : handle) : handshake_inv h (fst start) (snd start).
Proof.
  unfold handshake_inv, pumping; simpl; repeat split; auto.
  - apply precedes_cons; [discriminate | right; apply precedes_nil].
  - intros v; apply precedes_cons; [discriminate | right; apply precedes_nil].
  - intros [H | [H | [H | H]]]; discriminate H.
Qed.

(** Nothing is sent on a connection once the program is past it. *)
Lemma sent_later (g : nat) (sc : list answer) :
  forall s, (forall g', generation s = Some g' -> g < g') ->
            sent_on g (emitted s sc) = [].
Proof.
  induction sc as [|a sc IH]; intros s Hs; [reflexivity|].
  simpl; rewrite sent_on_app.
  assert (Hstep : sent_on g (snd (step s a)) = []
                  /\ forall g', generation (fst (step s a)) = Some g' -> g < g').
  { revert Hs; by_step s a; intros Hs; (split; [|intros g' Hg; try discriminate Hg;
                                                  injection Hg as <-]);
      try reflexivity; try (specialize (Hs _ eq_refl); lia).
    specialize (Hs _ eq_refl).
    destruct (Nat.eqb_spec g0 g) as [-> | Hne]; [lia | reflexivity]. }
  destruct Hstep as [-> Hnext]; exact (IH _ Hnext).
Qed.

(** C3: whenever a connection attempt succeeds, nothing had been sent on
    the new connection, the subscribe request is the next thing awaited,
    and it is the only frame ever sent on that connection.  On no
    connection of any run is more than that one frame sent, and whatever is
    received on a connection, and every message of it that is printed,
    comes after the subscribe request was sent on it. *)
Theorem C3_handshake_once_before_pumping
        (sc rest : list answer) (g : nat) (v : pyval) :
  state_after sc = Connecting g ->
  sent_on g (trace sc) = []
  /\ trace (sc ++ [Done v]) = trace sc ++ [Yield g; Await (Send g subscribe_text)]
  /\ sent_on g (trace (sc ++ Done v :: rest)) = [subscribe_text]
  /\ (forall sc' h,
         (sent_on h (trace sc') = [] \/ sent_on h (trace sc') = [subscribe_text])
         /\ precedes (Await (Send h subscribe_text)) (Await (Recv h)) (trace sc')
         /\ (forall w, precedes (Await (Send h subscribe_text)) (Print h w) (trace sc'))).
Proof.
  intros Hs.
  assert (Hinv : forall sc' h, handshake_inv h (state_after sc') (trace sc'))
    by (intros sc' h;
        exact (invariant (handshake_inv h) (handshake_inv_step h) sc'
                         (handshake_inv_start h))).
  assert (H0 : sent_on g (trace sc) = []).
  { destruct (Hinv sc g) as (A & _); apply (A g); [rewrite Hs; reflexivity | lia]. }
  split; [exact H0 | split; [exact (connected_step sc g v Hs) | split]].
  - rewrite trace_app, Hs, sent_on_app, H0; simpl; rewrite Nat.eqb_refl; simpl.
    rewrite sent_later; [reflexivity|].
    intros g' Hg; injection Hg as <-; lia.
  - intros sc' h; destruct (Hinv sc' h) as (_ & B & C1 & C2 & _).
    change subscribe_text with (dumps msg); split; [exact B | split; [exact C1 | exact C2]].
Qed.

Lemma C3_handshake_once_before_pumping_witness :
  state_after [Done PNone; Done PNone; Done (PBool false); Done PNone] = Connecting 1
  /\ sent_on 1 (trace ([Done PNone; Done PNone; Done (PBool false); Done PNone]
                         ++ Done PNone :: [Done PNone; Done (PBool true);
                                           Done (PStr "tick"); Done PNone]))
     = [subscribe_text].
Proof.
  split; [reflexivity|].
  exact (proj1 (proj2 (proj2 (C3_handshake_once_before_pumping
                                [Done PNone; Done PNone; Done (PBool false); Done PNone]
                                [Done PNone; Done (PBool true); Done (PStr "tick");
                                 Done PNone]
                                1 PNone eq_refl)))).
Defined.

(** ** One connection at a time *)






(** * Further properties of [websocket_generator] and [print_btc_ticker] *)

Lemma yielded_app (t1 t2 : list event) :
  yielded (t1 ++ t2) = yielded t1 ++ yielded t2.
Proof.
  induction t1 as [|ev t1 IH]; [reflexivity|].
  destruct ev; simpl; rewrite IH; reflexivity.
Qed.

(** Connections are yielded in the order 0, 1, 2, ...: none is yielded
    twice, none is skipped, and their number is the generation the program
    has reached. *)
Theorem yields_are_consecutive (sc : list answer) :
  exists n, yielded (trace sc) = seq 0 n
            /\ forall g, generation (state_after sc) = Some g -> g = n.
Proof.
  apply (invariant
           (fun s hist => exists n, yielded hist = seq 0 n
                                    /\ forall g, generation s = Some g -> g = n)).
  - intros s a hist (n & Hy & Hg).
    assert (Hsame : yielded (snd (step s a)) = [] ->
                    (forall g, generation (fst (step s a)) = Some g ->
                               generation s = Some g) ->
                    exists n', yielded (hist ++ snd (step s a)) = seq 0 n'
                               /\ forall g, generation (fst (step s a)) = Some g -> g = n').
    { intros E Hk; exists n; rewrite yielded_app, E, app_nil_r; split; [exact Hy|].
      intros g H; exact (Hg g (Hk g H)). }
    revert Hg Hsame; by_step s a; intros Hg Hsame;
      try (apply Hsame; [reflexivity | intros g' H; first [exact H | discriminate H]]);
      (exists (S g); rewrite yielded_app, Hy, <- (Hg g eq_refl), seq_S;
       split; [reflexivity|];
       intros g' H; first [discriminate H | injection H as <-; reflexivity]).
  - exists 0; split; [reflexivity | intros g H; injection H as <-; reflexivity].
Qed.

Lemma log_lines_app (t1 t2 : list event) :
  log_lines (t1 ++ t2) = log_lines t1 ++ log_lines t2.
Proof.
  induction t1 as [|ev t1 IH]; [reflexivity|].
  destruct ev; simpl; rewrite IH; reflexivity.
Qed.

Lemma logged_from (sc : list answer) :
  forall s, running s = true -> no_cancel sc = true ->
            Forall2 reports (log_lines (emitted s sc)) (raised sc).
Proof.
  induction sc as [|a sc IH]; intros s Hs H; [constructor|].
  simpl in H; apply andb_prop in H; destruct H as [Ha H].
  revert Ha; by_step s a; intros Ha;
    try discriminate Hs; try discriminate Ha;
    first [ apply IH; [reflexivity | exact H]
          | constructor; [unfold reports; auto | apply IH; [reflexivity | exact H]] ].
Qed.

(** Without cancellation, the lines logged in a run are, in order, one for
    each exception that a collaborator raised, each formatted with that
    exception: every failure is logged once and nothing else is logged. *)
Theorem every_failure_logged_once (sc : list answer) :
  no_cancel sc = true ->
  Forall2 reports (log_lines (trace sc)) (raised sc).
Proof. intros H; exact (logged_from sc (fst start) eq_refl H). Qed.

Lemma every_failure_logged_once_witness :
  no_cancel [Throw refused; Done PNone; Throw refused; Done PNone] = true
  /\ Forall2 reports
       (log_lines (trace [Throw refused; Done PNone; Throw refused; Done PNone]))
       [refused; refused].
Proof.
  split; [reflexivity|].
  exact (every_failure_logged_once
           [Throw refused; Done PNone; Throw refused; Done PNone] eq_refl).
Defined.

(** At line 33 nothing but the yield and the send has touched the
    connection, and every connection used so far is older than the
    generation reached. *)
Lemma fresh_at_send (sc : list answer) :
  (forall g ev h, generation (state_after sc) = Some g ->
                  In ev (trace sc) -> acts_on ev = Some h -> h < g)
  /\ (forall h ev, state_after sc = Sending h ->
                   In ev (trace sc) -> acts_on ev = Some h ->
                   ev = Yield h \/ ev = Await (Send h (dumps msg))).
Proof.
  apply (invariant
           (fun s hist =>
              (forall g ev h, generation s = Some g ->
                              In ev hist -> acts_on ev = Some h -> h < g)
              /\ (forall h ev, s = Sending h ->
                               In ev hist -> acts_on ev = Some h ->
                               ev = Yield h \/ ev = Await (Send h (dumps msg))))).
  - intros s a hist [A B]; split.
    + revert A; by_step s a; intros A g0 ev h' Hg Hin E; try discriminate Hg;
        injection Hg as <-; apply in_app_or in Hin;
        (destruct Hin as [Hin | Hin];
         [specialize (A _ _ _ eq_refl Hin E); lia
         | in_cases Hin; subst ev; simpl in E; try discriminate E;
           injection E as <-; lia]).
    + revert A; by_step s a; intros A h' ev Hs Hin E; try discriminate Hs.
      injection Hs as <-; apply in_app_or in Hin; destruct Hin as [Hin | Hin].
      * specialize (A _ _ _ eq_refl Hin E); lia.
      * in_cases Hin; subst ev; auto.
  - split.
    + intros g ev h _ [<- | []] E; discriminate E.
    + intros h ev H; discriminate H.
Qed.

(** If sending the subscribe request fails, the failure is logged, the
    connection is closed, and nothing is ever received or printed on that
    connection, neither before nor after. *)
Theorem handshake_failure_no_receive
        (sc rest : list answer) (h : handle) (e : exn) :
  state_after sc = Sending h ->
  is_ordinary e = true ->
  trace (sc ++ Throw e :: rest)
  = trace sc ++ LogError ("Error in print_btc_ticker: " ++ text e)%string
             :: Await (Close h) :: emitted (Closing h) rest
  /\ ~ In (Await (Recv h)) (trace (sc ++ Throw e :: rest))
  /\ (forall v, ~ In (Print h v) (trace (sc ++ Throw e :: rest))).
Proof.
  intros Hs He.
  assert (E : trace (sc ++ Throw e :: rest)
              = trace sc ++ LogError ("Error in print_btc_ticker: " ++ text e)%string
                         :: Await (Close h) :: emitted (Closing h) rest)
    by (apply (pump_failure sc rest (Sending h) h e Hs); auto).
  assert (Hb : forall ev h', In ev (emitted (Closing h) rest) ->
                             acts_on ev = Some h' -> h < h')
    by (apply beyond_emitted; simpl; lia).
  assert (Hno : forall ev, acts_on ev = Some h -> ev <> Yield h ->
                           ev <> Await (Send h (dumps msg)) ->
                           ev <> Await (Close h) ->
                           ~ In ev (trace (sc ++ Throw e :: rest))).
  { intros ev Hev N1 N2 N3 H; rewrite E in H; apply in_app_or in H.
    destruct H as [H | [H | [H | H]]].
    - destruct (proj2 (fresh_at_send sc) h ev Hs H Hev); contradiction.
    - subst ev; discriminate Hev.
    - exact (N3 (eq_sym H)).
    - specialize (Hb _ _ H Hev); lia. }
  split; [exact E | split].
  - apply Hno; [reflexivity | discriminate ..].
  - intros v; apply Hno; [reflexivity | discriminate ..].
Qed.

Lemma handshake_failure_no_receive_witness :
  state_after [Done PNone] = Sending 0
  /\ is_ordinary refused = true
  /\ ~ In (Await (Recv 0))
          (trace ([Done PNone] ++ Throw refused :: [Done PNone; Done PNone])).
Proof.
  split; [reflexivity | split; [reflexivity|]].
  exact (proj1 (proj2 (handshake_failure_no_receive
                         [Done PNone] [Done PNone; Done PNone] 0 refused
                         eq_refl eq_refl))).
Defined.

(** A failure while a connection is pumped never reaches the handler of
    the generator: once the connection is closed the next attempt is made
    at once, and no sleep is even created (the comment of line 42
    notwithstanding). *)
Theorem pump_failure_reconnects_without_delay
        (sc : list answer) (h : handle) (e : exn) (v : pyval) :
  pumping h (state_after sc) ->
  is_ordinary e = true ->
  print_btc_ticker (sc ++ [Throw e; Done v])
  = (Connecting (S h),
     trace sc ++ [LogError ("Error in print_btc_ticker: " ++ text e)%string;
                  Await (Close h); Released h; Await (Connect URL)]).
Proof.
  intros Hp He.
  change (print_btc_ticker (sc ++ [Throw e; Done v]))
    with (state_after (sc ++ [Throw e; Done v]), trace (sc ++ [Throw e; Done v])).
  rewrite state_after_app, trace_app.
  destruct Hp as [-> | [-> | [-> | ->]]]; simpl;
    unfold print_btc_ticker_try; rewrite He; reflexivity.
Qed.

Lemma pump_failure_reconnects_without_delay_witness :
  pumping 0 (state_after [Done PNone; Done PNone; Done (PBool true)])
  /\ is_ordinary refused = true
  /\ state_after ([Done PNone; Done PNone; Done (PBool true)] ++ [Throw refused; Done PNone])
     = Connecting 1.
Proof.
  assert (Hp : pumping 0 (state_after [Done PNone; Done PNone; Done (PBool true)]))
    by (right; right; left; reflexivity).
  split; [exact Hp | split; [reflexivity|]].
  unfold state_after at 1.
  rewrite (pump_failure_reconnects_without_delay
             [Done PNone; Done PNone; Done (PBool true)] 0 refused PNone Hp eq_refl).
  reflexivity.
Defined.

(** When [websocket.open] is read as false the receive loop ends without
    an error being logged: the connection is closed and whatever uses a
    connection afterwards uses a newer one. *)
Theorem peer_close_reconnects_silently
        (sc rest : list answer) (h : handle) (v : pyval) :
  state_after sc = CheckingOpen h ->
  truthy v = false ->
  trace (sc ++ Done v :: rest) = trace sc ++ Await (Close h) :: emitted (Closing h) rest
  /\ log_lines (trace (sc ++ [Done v])) = log_lines (trace sc)
  /\ (forall ev h', In ev (emitted (Closing h) rest) -> acts_on ev = Some h' -> h < h').
Proof.
  intros Hs Hv; split; [|split].
  - rewrite trace_app, Hs; simpl; rewrite Hv; reflexivity.
  - rewrite trace_app, Hs, log_lines_app; simpl; rewrite Hv; simpl.
    apply app_nil_r.
  - apply beyond_emitted; simpl; lia.
Qed.

Lemma peer_close_reconnects_silently_witness :
  state_after [Done PNone; Done PNone] = CheckingOpen 0
  /\ truthy (PBool false) = false
  /\ trace ([Done PNone; Done PNone] ++ Done (PBool false) :: [Done PNone])
     = trace [Done PNone; Done PNone]
             ++ Await (Close 0) :: emitted (Closing 0) [Done PNone].
Proof.
  split; [reflexivity | split; [reflexivity|]].
  exact (proj1 (peer_close_reconnects_silently
                  [Done PNone; Done PNone] [Done PNone] 0 (PBool false)
                  eq_refl eq_refl)).
Defined.

(** Every connection attempt of every run is made to [URL], and the retry
    delay built after a failure is always 5, however many failures came
    before. *)
Theorem fixed_endpoint_and_delay (sc : list answer) (ev : event) :
  In ev (trace sc) ->
  (forall u, ev = Await (Connect u) -> u = URL)
  /\ (forall c, ev = Dropped c -> c = Sleep 5).
Proof.
  intros H; pose proof (trace_well_formed sc ev H) as W; split.
  - intros u ->; exact W.
  - intros c ->; exact W.
Qed.

Lemma fixed_endpoint_and_delay_witness :
  In (Dropped (Sleep 5)) (trace [Throw refused; Throw refused])
  /\ forall c, Dropped (Sleep 5) = Dropped c -> c = Sleep 5.
Proof.
  assert (H : In (Dropped (Sleep 5)) (trace [Throw refused; Throw refused]))
    by (right; right; left; reflexivity).
  split; [exact H|].
  exact (proj2 (fixed_endpoint_and_delay [Throw refused; Throw refused] _ H)).
Defined.

(** However many attempts are refused, the first one that succeeds yields
    connection 0 and the subscribe request is sent on it. *)
Theorem first_success_after_failures (errs : list exn) (v : pyval) :
  forallb is_ordinary errs = true ->
  print_btc_ticker (map Throw errs ++ [Done v])
  = (Sending 0,
     Await (Connect URL) :: flat_map retry_events errs
           ++ [Yield 0; Await (Send 0 subscribe_text)]).
Proof.
  intros H; destruct (retry_run errs 0 H) as [H1 H2].
  unfold print_btc_ticker; simpl.
  rewrite exec_app, emitted_app, H1, H2; reflexivity.
Qed.

Lemma first_success_after_failures_witness :
  forallb is_ordinary [refused; refused] = true
  /\ state_after (map Throw [refused; refused] ++ [Done PNone]) = Sending 0.
Proof.
  split; [reflexivity|].
  unfold state_after.
  rewrite (first_success_after_failures [refused; refused] PNone eq_refl).
  reflexivity.
Defined.

Lemma closes_app (h : handle) (t1 t2 : list event) :
  closes h (t1 ++ t2) = closes h t1 + closes h t2.
Proof.
  induction t1 as [|ev t1 IH]; [reflexivity|].
  destruct ev as [[]| | | | | |]; simpl; rewrite ?IH; lia.
Qed.

Lemma close_once_inv (h : handle) (sc : list answer) :
  closes h (trace sc) <= 1
  /\ (pumping h (state_after sc) -> closes h (trace sc) = 0)
  /\ (forall g, generation (state_after sc) = Some g -> g <= h ->
                closes h (trace sc) = 0)
  /\ precedes (Yield h) (Await (Close h)) (trace sc)
  /\ (pumping h (state_after sc) -> In (Yield h) (trace sc)).
Proof.
  apply (invariant
           (fun s hist =>
              closes h hist <= 1
              /\ (pumping h s -> closes h hist = 0)
              /\ (forall g, generation s = Some g -> g <= h -> closes h hist = 0)
              /\ precedes (Yield h) (Await (Close h)) hist
              /\ (pumping h s -> In (Yield h) hist))).
  - intros s a hist (A & B & C & D & E); unfold pumping in *.
    assert (Hquiet : closes h (snd (step s a)) = 0 \/
                     (pumping h s /\ closes h (snd (step s a)) = 1
                      /\ generation (fst (step s a)) = Some (S h)
                      /\ ~ pumping h (fst (step s a)))).
    { unfold pumping; by_step s a; auto;
        destruct (Nat.eqb_spec h0 h) as [-> | Hne]; auto;
        right; (split; [auto 10 | split; [reflexivity | split; [reflexivity|]]]);
        intros [H | [H | [H | H]]]; discriminate H. }
    split; [|split; [|split; [|split]]].
    + rewrite closes_app; destruct Hquiet as [-> | (Hp & -> & _)]; [lia|].
      rewrite (B Hp); lia.
    + intros Hp; rewrite closes_app.
      destruct Hquiet as [-> | (_ & _ & _ & Hc)]; [|contradiction].
      rewrite Nat.add_0_r.
      revert B C Hp; by_step s a; intros B C [H | [H | [H | H]]];
        try discriminate H; injection H as ->;
        first [apply B; tauto | apply (C _ eq_refl); lia].
    + intros g Hg Hle; rewrite closes_app.
      destruct Hquiet as [-> | (_ & _ & Hc & _)];
        [|rewrite Hc in Hg; injection Hg as <-; lia].
      rewrite Nat.add_0_r.
      revert C Hg; by_step s a; intros C Hg; try discriminate Hg;
        injection Hg as <-; apply (C _ eq_refl); lia.
    + apply precedes_app; [exact D|].
      destruct Hquiet as [Hq | (Hp & _)]; [|left; exact (E Hp)].
      right; intros pre post Eq.
      assert (Hin : In (Await (Close h)) (snd (step s a)))
        by (rewrite Eq; apply in_elt).
      exfalso; clear - Hq Hin.
      induction (snd (step s a)) as [|ev l IH]; [contradiction|].
      destruct Hin as [-> | Hin].
      * simpl in Hq; rewrite Nat.eqb_refl in Hq; discriminate Hq.
      * apply IH; [|exact Hin].
        destruct ev as [[]| | | | | |]; simpl in Hq; lia.
    + revert E; by_step s a; intros E [H | [H | [H | H]]];
        try discriminate H; injection H as ->; apply in_or_app;
        first [left; apply E; tauto | right; left; reflexivity].
  - unfold pumping; simpl; repeat split; auto.
    + apply precedes_cons; [discriminate | right; apply precedes_nil].
    + intros [H | [H | [H | H]]]; discriminate H.
Qed.

(** No connection is closed twice, and none is closed that was not yielded
    before. *)
Theorem closed_at_most_once (sc : list answer) (h : handle) :
  closes h (trace sc) <= 1
  /\ precedes (Yield h) (Await (Close h)) (trace sc).
Proof.
  destruct (close_once_inv h sc) as (A & _ & _ & D & _); split; assumption.
Qed.

Lemma sessions_from (n : nat) :
  forall g, exec (Connecting g) (List.concat (repeat clean_session n)) = Connecting (g + n).
Proof.
  induction n as [|n IH]; intros g; simpl; [f_equal; lia|].
  rewrite (IH (S g)); f_equal; lia.
Qed.

(** The generator has no bound on the connections it opens: after [n]
    sessions that the peer closed, the program is attempting connection [n]
    and has yielded the connections 0 to [n - 1], each once. *)
Theorem reconnects_without_bound (n : nat) :
  state_after (List.concat (repeat clean_session n)) = Connecting n
  /\ yielded (trace (List.concat (repeat clean_session n))) = seq 0 n.
Proof.
  assert (H : state_after (List.concat (repeat clean_session n)) = Connecting n)
    by exact (sessions_from n 0).
  split; [exact H|].
  destruct (yields_are_consecutive (List.concat (repeat clean_session n))) as (m & Hy & Hg).
  rewrite H in Hg; rewrite Hy, <- (Hg n eq_refl); reflexivity.
Qed.

(** * Properties of the one-shot client *)

Lemma oneshot_stopped (s : ExampleWebsockets.state) (sc : list answer) :
  ExampleWebsockets.finished s = true ->
  ExampleWebsockets.exec s sc = s /\ ExampleWebsockets.emitted s sc = [].
Proof.
  intros Hs; induction sc as [|a sc [IH1 IH2]]; [split; reflexivity|].
  destruct s; try discriminate Hs; simpl; rewrite IH1, IH2; split; reflexivity.
Qed.

Lemma oneshot_remaining_step (s : ExampleWebsockets.state) (a : answer) :
  ExampleWebsockets.remaining (fst (ExampleWebsockets.step s a))
  <= pred (ExampleWebsockets.remaining s).
Proof.
  destruct s as [| | | |[e|]| |]; destruct a as [v|e']; simpl;
    try destruct (truthy v); simpl; lia.
Qed.

Lemma oneshot_remaining_exec (sc : list answer) :
  forall s, ExampleWebsockets.remaining (ExampleWebsockets.exec s sc)
            <= ExampleWebsockets.remaining s - List.length sc.
Proof.
  induction sc as [|a sc IH]; intros s; simpl; [lia|].
  specialize (IH (fst (ExampleWebsockets.step s a))).
  pose proof (oneshot_remaining_step s a); lia.
Qed.

Lemma oneshot_step_events (s : ExampleWebsockets.state) (a : answer) (ev : event) :
  In ev (snd (ExampleWebsockets.step s a)) ->
  ev <> Await (Connect URL) /\ log_lines [ev] = [] /\ forall d, ev <> Await (Sleep d).
Proof.
  destruct s as [| | | |[e|]| |]; destruct a as [v|e']; simpl;
    try destruct (truthy v); simpl; intros H; in_cases H; subst ev;
    repeat split; discriminate.
Qed.

Lemma oneshot_emitted_events (sc : list answer) :
  forall s ev, In ev (ExampleWebsockets.emitted s sc) ->
               exists s' a, In ev (snd (ExampleWebsockets.step s' a)).
Proof.
  induction sc as [|a sc IH]; intros s ev H; simpl in H; [contradiction|].
  apply in_app_or in H; destruct H as [H | H]; [exists s, a; exact H | exact (IH _ _ H)].
Qed.

(** The one-shot client stops after at most five answers of its
    collaborators, and in no run does it make a second connection attempt
    or log anything: a failure is never retried. *)
Theorem oneshot_terminates_without_retry (sc : list answer) :
  (5 <= List.length sc ->
   ExampleWebsockets.finished (fst (ExampleWebsockets.print_btc_ticker sc)) = true)
  /\ ~ In (Await (Connect URL)) (ExampleWebsockets.emitted ExampleWebsockets.Connecting sc)
  /\ log_lines (snd (ExampleWebsockets.print_btc_ticker sc)) = [].
Proof.
  split; [|split].
  - intros Hl; simpl.
    pose proof (oneshot_remaining_exec sc ExampleWebsockets.Connecting) as H.
    destruct (ExampleWebsockets.exec ExampleWebsockets.Connecting sc);
      cbn [ExampleWebsockets.remaining] in H; try lia; reflexivity.
  - intros H; destruct (oneshot_emitted_events _ _ _ H) as (s & a & Hs).
    exact (proj1 (oneshot_step_events _ _ _ Hs) eq_refl).
  - simpl.
    assert (Hall : forall l, (forall ev, In ev l -> log_lines [ev] = []) ->
                             log_lines l = []).
    { induction l as [|ev l IH]; intros Hl; [reflexivity|].
      specialize (IH (fun x Hx => Hl x (or_intror Hx))).
      specialize (Hl ev (or_introl eq_refl)).
      destruct ev; simpl in *; try exact IH; discriminate Hl. }
    apply Hall; intros ev H.
    destruct (oneshot_emitted_events _ _ _ H) as (s & a & Hs).
    exact (proj1 (proj2 (oneshot_step_events _ _ _ Hs))).
Qed.

Lemma oneshot_terminates_without_retry_witness :
  5 <= List.length [Done PNone; Done PNone; Throw refused; Done PNone; Done PNone]
  /\ ExampleWebsockets.finished
       (fst (ExampleWebsockets.print_btc_ticker
               [Done PNone; Done PNone; Throw refused; Done PNone; Done PNone]))
     = true.
Proof.
  assert (H : 5 <= List.length
                     [Done PNone; Done PNone; Throw refused; Done PNone; Done PNone])
    by (simpl; lia).
  split; [exact H|].
  exact (proj1 (oneshot_terminates_without_retry
                  [Done PNone; Done PNone; Throw refused; Done PNone; Done PNone]) H).
Defined.

Lemma oneshot_closes_from (sc : list answer) :
  forall s, ExampleWebsockets.inside s = true ->
            ExampleWebsockets.finished (ExampleWebsockets.exec s sc) = true ->
            In (Await (Close 0)) (ExampleWebsockets.emitted s sc).
Proof.
  induction sc as [|a sc IH]; intros s Hs Hf; simpl in *.
  - destruct s; discriminate.
  - apply in_or_app.
    destruct s; try discriminate Hs; destruct a as [v|e]; simpl in *;
      first [left; left; reflexivity | right; apply IH; [reflexivity | exact Hf]].
Qed.

(** Once the connection is open, the one-shot client never ends without
    closing it: whether the body returns, raises or is cancelled, the close
    of the [async with] is awaited before the program ends. *)
Theorem oneshot_always_closes (v : pyval) (sc : list answer) :
  ExampleWebsockets.finished
    (fst (ExampleWebsockets.print_btc_ticker (Done v :: sc))) = true ->
  In (Await (Close 0)) (snd (ExampleWebsockets.print_btc_ticker (Done v :: sc))).
Proof.
  intros Hf; simpl in *; right; right.
  apply oneshot_closes_from; [reflexivity | exact Hf].
Qed.

Lemma oneshot_always_closes_witness :
  ExampleWebsockets.finished
    (fst (ExampleWebsockets.print_btc_ticker
            (Done PNone :: [Done PNone; Throw cancelled; Done PNone]))) = true
  /\ In (Await (Close 0))
        (snd (ExampleWebsockets.print_btc_ticker
                (Done PNone :: [Done PNone; Throw cancelled; Done PNone]))).
Proof.
  split; [reflexivity|].
  exact (oneshot_always_closes PNone [Done PNone; Throw cancelled; Done PNone] eq_refl).
Defined.

(** An exception raised by connect, send, receive or print ends the
    one-shot client with that very exception, once the close of the
    connection has returned a false value (as [None]). *)
Theorem oneshot_failure_propagates
        (vals : list pyval) (e : exn) (v : pyval) (rest : list answer) :
  List.length vals <= 3 ->
  truthy v = false ->
  fst (ExampleWebsockets.print_btc_ticker (map Done vals ++ Throw e :: Done v :: rest))
  = ExampleWebsockets.Propagated e.
Proof.
  intros Hl Hv; simpl.
  destruct vals as [|v1 [|v2 [|v3 [|v4 vals]]]]; simpl in *; try lia;
    rewrite ?Hv;
    exact (proj1 (oneshot_stopped (ExampleWebsockets.Propagated e) _ eq_refl)).
Qed.

Lemma oneshot_failure_propagates_witness :
  List.length [PNone; PNone] <= 3
  /\ truthy PNone = false
  /\ fst (ExampleWebsockets.print_btc_ticker
            (map Done [PNone; PNone] ++ Throw refused :: Done PNone :: []))
     = ExampleWebsockets.Propagated refused.
Proof.
  assert (H : List.length [PNone; PNone] <= 3) by (simpl; lia).
  split; [exact H | split; [reflexivity|]].
  exact (oneshot_failure_propagates [PNone; PNone] refused PNone [] H eq_refl).
Defined.

Lemma oneshot_no_print_after (sc : list answer) :
  forall s, ExampleWebsockets.remaining s <= 2 ->
            delivered 0 (ExampleWebsockets.emitted s sc) = [].
Proof.
  induction sc as [|a sc IH]; intros s Hs; [reflexivity|].
  simpl; rewrite delivered_app.
  pose proof (oneshot_remaining_step s a) as Hr.
  rewrite (IH (fst (ExampleWebsockets.step s a))), app_nil_r; [|lia].
  destruct s as [| | | |[e|]| |]; simpl in Hs; try lia;
    destruct a as [w|e']; simpl; try destruct (truthy w); reflexivity.
Qed.

(** The one-shot client prints the frame that the single receive returned,
    unchanged, and nothing else; it prints nothing when connect, send or
    receive failed. *)
Theorem oneshot_prints_the_one_frame (sc : list answer) :
  delivered 0 (snd (ExampleWebsockets.print_btc_ticker sc))
  = match sc with
    | Done _ :: Done _ :: Done response :: _ => [response]
    | _ => []
    end.
Proof.
  simpl.
  destruct sc as [|[v1|e1] sc]; [reflexivity | | ]; simpl.
  - destruct sc as [|[v2|e2] sc]; [reflexivity | | ]; simpl.
    + destruct sc as [|[v3|e3] sc]; [reflexivity | | ]; simpl.
      * rewrite oneshot_no_print_after; [reflexivity | simpl; lia].
      * apply oneshot_no_print_after; simpl; lia.
    + apply oneshot_no_print_after; simpl; lia.
  - apply oneshot_no_print_after; simpl; lia.
Qed.

(** * Properties of the file printers *)

Lemma rstrip_newline (s : ExampleFiles.text) :
  ExampleFiles.rstrip (s ++ [ExampleFiles.newline]) = ExampleFiles.rstrip s.
Proof.
  induction s as [|c s IH]; [reflexivity|].
  simpl; rewrite IH; reflexivity.
Qed.

Lemma strip_newline (s : ExampleFiles.text) :
  ExampleFiles.strip (s ++ [ExampleFiles.newline]) = ExampleFiles.strip s.
Proof. unfold ExampleFiles.strip; rewrite rstrip_newline; reflexivity. Qed.

Lemma split_newline_nonempty (c : ExampleFiles.text) :
  ExampleFiles.split_newline c <> [].
Proof.
  destruct c as [|x c]; simpl; [discriminate|].
  destruct (Ascii.eqb x ExampleFiles.newline); [discriminate|].
  destruct (ExampleFiles.split_newline c); discriminate.
Qed.

Lemma readlines_of_split (c : ExampleFiles.text) :
  ExampleFiles.readlines c
  = ExampleFiles.lines_of_pieces (ExampleFiles.split_newline c).
Proof.
  induction c as [|x c IH]; [reflexivity|].
  simpl; destruct (Ascii.eqb_spec x ExampleFiles.newline) as [-> | Hx].
  - rewrite IH.
    pose proof (split_newline_nonempty c) as Hne.
    destruct (ExampleFiles.split_newline c); [contradiction | reflexivity].
  - rewrite IH.
    pose proof (split_newline_nonempty c) as Hne.
    destruct (ExampleFiles.split_newline c) as [|p ps]; [contradiction|].
    destruct ps as [|q ps]; simpl.
    + destruct p; reflexivity.
    + reflexivity.
Qed.

Lemma ends_with_newline_cons (x : ascii) (c : ExampleFiles.text) :
  ExampleFiles.ends_with_newline (x :: c)
  = match c with
    | [] => Ascii.eqb x ExampleFiles.newline
    | _ => ExampleFiles.ends_with_newline c
    end.
Proof. destruct c; reflexivity. Qed.

Lemma split_single_empty (c : ExampleFiles.text) :
  ExampleFiles.split_newline c = [[]] -> c = [].
Proof.
  destruct c as [|x c]; [reflexivity|].
  pose proof (split_newline_nonempty c) as Hne.
  simpl; destruct (Ascii.eqb x ExampleFiles.newline);
    destruct (ExampleFiles.split_newline c); try contradiction; discriminate.
Qed.

Lemma last_piece_empty (c : ExampleFiles.text) :
  match last (ExampleFiles.split_newline c) [] with
  | [] => true
  | _ => false
  end = ExampleFiles.ends_with_newline c.
Proof.
  induction c as [|x c IH]; [reflexivity|].
  pose proof (split_newline_nonempty c) as Hne.
  pose proof (split_single_empty c) as Hone.
  rewrite ends_with_newline_cons.
  simpl ExampleFiles.split_newline.
  destruct (Ascii.eqb_spec x ExampleFiles.newline) as [-> | Hx].
  - destruct (ExampleFiles.split_newline c) as [|p ps]; [contradiction|].
    change (last ([] :: p :: ps) []) with (last (p :: ps) []); rewrite IH.
    destruct c; reflexivity.
  - destruct (ExampleFiles.split_newline c) as [|p ps] eqn:E; [contradiction|].
    destruct ps as [|q ps].
    + simpl; destruct c as [|y c]; [reflexivity|].
      rewrite <- IH; simpl.
      destruct p; [discriminate (Hone eq_refl) | reflexivity].
    + change (last ((x :: p) :: q :: ps) []) with (last (q :: ps) []).
      change (last (p :: q :: ps) []) with (last (q :: ps) []) in IH.
      rewrite IH; destruct c; [discriminate E | reflexivity].
Qed.

Lemma strip_pieces (ps : list ExampleFiles.text) :
  ps <> [] ->
  map ExampleFiles.strip ps
  = map ExampleFiles.strip (ExampleFiles.lines_of_pieces ps)
        ++ match last ps [] with [] => [[]] | _ => [] end.
Proof.
  induction ps as [|p ps IH]; intros Hne; [contradiction|].
  destruct ps as [|q ps].
  - destruct p; reflexivity.
  - change (last (p :: q :: ps) []) with (last (q :: ps) []).
    change (ExampleFiles.lines_of_pieces (p :: q :: ps))
      with ((p ++ [ExampleFiles.newline]) :: ExampleFiles.lines_of_pieces (q :: ps)).
    simpl map at 1 2; rewrite strip_newline.
    simpl app; f_equal; apply IH; discriminate.
Qed.

(** [example_async.py] against [example_context.py]: on the same file,
    splitting the content at the newlines prints what iterating over the
    file prints, followed by one more, empty, line exactly when the file is
    empty or ends with a newline. *)
Theorem split_prints_one_more_line (content : ExampleFiles.text) :
  ExampleFiles.print_duote_quote content
  = ExampleFiles.print_file_lines content
      ++ (if ExampleFiles.ends_with_newline content then [[]] else []).
Proof.
  unfold ExampleFiles.print_duote_quote, ExampleFiles.print_file_lines.
  rewrite readlines_of_split, (strip_pieces _ (split_newline_nonempty content)).
  rewrite <- last_piece_empty.
  destruct (last (ExampleFiles.split_newline content) []); reflexivity.
Qed.

Lemma split_newline_length (c : ExampleFiles.text) :
  List.length (ExampleFiles.split_newline c)
  = S (count_occ ascii_dec c ExampleFiles.newline).
Proof.
  induction c as [|x c IH]; [reflexivity|].
  pose proof (split_newline_nonempty c) as Hne.
  simpl ExampleFiles.split_newline.
  destruct (Ascii.eqb_spec x ExampleFiles.newline) as [-> | Hx].
  - rewrite count_occ_cons_eq by reflexivity; simpl; rewrite IH; reflexivity.
  - rewrite count_occ_cons_neq by exact Hx.
    destruct (ExampleFiles.split_newline c) as [|p ps]; [contradiction|].
    simpl in *; exact IH.
Qed.

(** [print_duote_quote] of [example_async.py] prints one line more than
    the file has newline characters: an empty file gives one empty line,
    never nothing. *)
Theorem print_duote_quote_line_count (content : ExampleFiles.text) :
  List.length (ExampleFiles.print_duote_quote content)
  = S (count_occ ascii_dec content ExampleFiles.newline)
  /\ ExampleFiles.print_duote_quote [] = [[]].
Proof.
  split; [|reflexivity].
  unfold ExampleFiles.print_duote_quote; rewrite length_map.
  apply split_newline_length.
Qed.

(** * Properties of [simple_generator] *)

Lemma nexts_finished (n : nat) :
  ExampleGenerators.nexts n ExampleGenerators.Finished
  = repeat ExampleGenerators.StopIteration n.
Proof. induction n as [|n IH]; [reflexivity | simpl; rewrite IH; reflexivity]. Qed.

(** [simple_generator] gives 1, 2, 3 and is then exhausted: every later
    [next] raises [StopIteration]. *)
Theorem simple_generator_exhausts (n : nat) :
  ExampleGenerators.nexts n ExampleGenerators.simple_generator
  = map ExampleGenerators.Yielded (firstn n [1; 2; 3])
        ++ repeat ExampleGenerators.StopIteration (n - 3).
Proof.
  destruct n as [|[|[|[|n]]]]; try reflexivity.
  simpl; rewrite nexts_finished; reflexivity.
Qed.
